(** * ctgovChat: the conversation-to-SQL feedback loop

    A shallow embedding of [ctgovchat.py] and the properties of its
    reply parsing, schema description, statement execution, model-call
    retry and session termination.

    Python [str] values are modelled by [string]; a character is a code
    point below 256.  Dictionaries that are only looked up are [gmap]s,
    the dictionary whose iteration order matters is an association list. *)

From Stdlib Require Import Ascii DecimalString.
From Equations Require Import Equations.
From stdpp Require Import gmap strings list fin_maps.

(** ** Python string primitives *)

Module Py.

Definition chr (n : nat) : string := String (ascii_of_nat n) EmptyString.

Definition nl : string := chr 10.
Definition dquote : string := chr 34.

(** [str(n)] for a non-negative integer. *)
Definition str_nat (n : nat) : string := NilEmpty.string_of_uint (Nat.to_uint n).

(** [sep.join(l)] *)
Fixpoint join (sep : string) (l : list string) : string :=
  match l with
  | [] => EmptyString
  | [x] => x
  | x :: rest => x +:+ sep +:+ join sep rest
  end.

(** [str.isspace] on one character: tab, line feed, vertical tab, form
    feed, carriage return, the four separators 28..31, space, NEL and
    the no-break space. *)
Definition isspace (c : ascii) : bool :=
  let n := nat_of_ascii c in
  (((9 <=? n) && (n <=? 13)) || ((28 <=? n) && (n <=? 32))
   || (n =? 133) || (n =? 160))%nat.

(** [s.lstrip()] *)
Fixpoint lstrip (s : string) : string :=
  match s with
  | EmptyString => EmptyString
  | String c s' => if isspace c then lstrip s' else s
  end.

(** [s.rstrip()] *)
Fixpoint rstrip (s : string) : string :=
  match s with
  | EmptyString => EmptyString
  | String c s' =>
      match rstrip s' with
      | EmptyString => if isspace c then EmptyString else String c EmptyString
      | r => String c r
      end
  end.

(** [s.strip()] *)
Definition strip (s : string) : string := rstrip (lstrip s).

(** [s.lower()] on the ASCII letters and the Latin-1 capitals. *)
Definition lower_char (c : ascii) : ascii :=
  let n := nat_of_ascii c in
  if (((65 <=? n) && (n <=? 90))
      || ((192 <=? n) && (n <=? 222) && negb (n =? 215)))%nat
  then ascii_of_nat (n + 32) else c.

Fixpoint lower (s : string) : string :=
  match s with
  | EmptyString => EmptyString
  | String c s' => String (lower_char c) (lower s')
  end.

(** [enumerate(l)] *)
Fixpoint enumerate_from {A} (i : nat) (l : list A) : list (nat * A) :=
  match l with
  | [] => []
  | x :: rest => (i, x) :: enumerate_from (S i) rest
  end.

Definition enumerate {A} (l : list A) : list (nat * A) := enumerate_from 0 l.

End Py.

(** ** StatementExtractor: [extract_queries_from_response] *)

Definition fence : string := "```".

Definition is_tick (c : ascii) : bool := Ascii.eqb c "`".

(** The segment under construction gets one more character in front. *)
Definition push_char (c : ascii) (chunks : list string) : list string :=
  match chunks with
  | chunk :: rest => String c chunk :: rest
  | [] => [String c EmptyString]
  end.

(** [response_content.split(fence)]: the delimiters are found scanning
    from the left, without overlap; n delimiters give n+1 segments. *)
Fixpoint split_fence (s : string) : list string :=
  match s with
  | EmptyString => [EmptyString]
  | String c1 s1 =>
      match s1 with
      | String c2 (String c3 rest) =>
          if is_tick c1 && is_tick c2 && is_tick c3
          then EmptyString :: split_fence rest
          else push_char c1 (split_fence s1)
      | _ => push_char c1 (split_fence s1)
      end
  end.

(** [chunk.replace("sql", "")]: every occurrence, scanning from the left
    without overlap, is deleted; the result is not scanned again. *)
Fixpoint replace_sql (s : string) : string :=
  match s with
  | EmptyString => EmptyString
  | String c1 s1 =>
      match s1 with
      | String c2 (String c3 rest) =>
          if Ascii.eqb c1 "s" && Ascii.eqb c2 "q" && Ascii.eqb c3 "l"
          then replace_sql rest
          else String c1 (replace_sql s1)
      | _ => String c1 (replace_sql s1)
      end
  end.

Definition extract_queries_from_response (response_content : string) : list string :=
  let chunks := split_fence response_content in
  flat_map (fun '(i, chunk) =>
              if negb (i mod 2 =? 0)%nat then [Py.strip (replace_sql chunk)] else [])
           (Py.enumerate chunks).

(** ** SchemaDescriber: [format_schema] *)

(** A value of a result row, and its [str()]. *)
Inductive PyVal :=
| PNone
| PBool (b : bool)
| PInt (z : Z)
| PStr (s : string).

Definition py_str (v : PyVal) : string :=
  match v with
  | PNone => "None"
  | PBool true => "True"
  | PBool false => "False"
  | PInt z => NilEmpty.string_of_int (Z.to_int z)
  | PStr s => s
  end.

(** A [RealDictRow]: column name to value. *)
Abbreviation Row := (gmap string PyVal).

(** One row of the column catalog returned by [get_schema]. *)
Record ColumnRow := {
  table_name : string;
  column_name : string;
  data_type : string;
  is_nullable : string;
  column_default : PyVal
}.

Inductive PyError :=
| KeyError (key : string)
| AttributeError (msg : string).

(** A computation that returns or raises. *)
Definition Raises (A : Type) : Type := PyError + A.

Definition ret {A} (a : A) : Raises A := inr a.
Definition raise {A} (e : PyError) : Raises A := inl e.

Definition bind {A B} (m : Raises A) (k : A -> Raises B) : Raises B :=
  match m with
  | inl e => inl e
  | inr a => k a
  end.

Notation "'try!' x ':=' m 'in' k" := (bind m (fun x => k))
  (at level 10, x name, m at level 100, k at level 200).

(** A loop that builds a list, stopping at the first exception. *)
Fixpoint for_each {A B} (f : A -> Raises B) (l : list A) : Raises (list B) :=
  match l with
  | [] => ret []
  | a :: rest =>
      try! b := f a in
      try! bs := for_each f rest in
      ret (b :: bs)
  end.

(** Lines 71..76: [tables] is a dictionary in insertion order. *)
Fixpoint tables_append (tables : list (string * list ColumnRow)) (row : ColumnRow)
  : list (string * list ColumnRow) :=
  match tables with
  | [] => [(table_name row, [row])]
  | (t, columns) :: rest =>
      if String.eqb t (table_name row)
      then (t, columns ++ [row]) :: rest
      else (t, columns) :: tables_append rest row
  end.

Definition group_tables (schema : list ColumnRow) : list (string * list ColumnRow) :=
  foldl tables_append [] schema.

(** Line 83.  [example_rows[table_name]] raises [KeyError] on a missing
    key; [.get] does not. *)
Definition example_value (example_rows : gmap string (option Row))
    (table : string) (column : ColumnRow) : Raises string :=
  match example_rows !! table with
  | None => raise (KeyError table)
  | Some None => ret "N/A"
  | Some (Some row) =>
      ret (match row !! column_name column with
           | Some v => py_str v
           | None => "N/A"
           end)
  end.

(** Line 84. *)
Definition column_line (column : ColumnRow) (example : string) : string :=
  "  " +:+ column_name column +:+ " " +:+ data_type column +:+ " "
  +:+ (if String.eqb (is_nullable column) "YES" then "NULL" else "NOT NULL")
  +:+ "; Example: " +:+ example.

Definition table_string (example_rows : gmap string (option Row))
    (entry : string * list ColumnRow) : Raises string :=
  let '(table, columns) := entry in
  try! column_strings :=
    for_each (fun column =>
                try! ex := example_value example_rows table column in
                ret (column_line column ex)) columns in
  ret ("Table " +:+ table +:+ ":" +:+ Py.nl +:+ Py.join Py.nl column_strings).

Definition format_schema (schema : list ColumnRow)
    (example_rows : gmap string (option Row)) : Raises string :=
  try! table_strings := for_each (table_string example_rows) (group_tables schema) in
  ret (Py.join (Py.nl +:+ Py.nl) table_strings).

(** ** The session: [main] *)

Inductive Role := System | User | Assistant.

Record Message := { role : Role; content : string }.

(** Outcome of one [chat.completions.create] call: the call raises, or
    it returns a response whose first choice carries a text.  A response
    without a choice, or with a choice without content, has no case
    here: lines 182..187 are modelled for a response that has a text. *)
Inductive ApiResult :=
| ApiReply (response_content : string)
| ApiError (e : string).

(** Outcome of [cursor.execute(query)] followed by [cursor.fetchall()]. *)
Inductive ExecutionOutcome :=
| Success (result : list Row)
| Failure (e : string).

Definition is_failure (o : ExecutionOutcome) : bool :=
  match o with
  | Failure _ => true
  | Success _ => false
  end.

Definition aborted_message : string :=
  "current transaction is aborted, commands ignored until end of transaction block".

(** The connection of [connect_db] as psycopg2 gives it.  Autocommit is
    left off and the program never commits or rolls back, so all the
    statements of a session run in one transaction: once the server has
    refused one of them, it refuses every later one.  [answer] is what
    the server says to a statement while the transaction has not failed. *)
Definition transaction_aborted (answer : string -> ExecutionOutcome)
    (history : list string) : bool :=
  existsb (fun query => is_failure (answer query)) history.

Definition psycopg2_execute (answer : string -> ExecutionOutcome)
    (history : list string) (query : string) : ExecutionOutcome :=
  if transaction_aborted answer history then Failure aborted_message
  else answer query.

(** Everything the program reads from outside.  The model transport
    answers the k-th network call of the session; the database answers
    a statement given the statements already sent on the connection. *)
Record World := {
  schema_rows : list ColumnRow;
  sample_row : string -> option Row;
  selected_table : string;
  initial_question : string;
  api : nat -> list Message -> ApiResult;
  db : list string -> string -> ExecutionOutcome;
  tabulate : list Row -> string;
  user_input : nat -> string
}.

Record Session := {
  messages : list Message;
  api_calls : nat;
  executed : list string;
  prompts : nat;
  closed : nat
}.

Definition set_api_calls (st : Session) (n : nat) : Session :=
  {| messages := messages st; api_calls := n; executed := executed st;
     prompts := prompts st; closed := closed st |}.

Definition append_message (st : Session) (r : Role) (c : string) : Session :=
  {| messages := messages st ++ [{| role := r; content := c |}];
     api_calls := api_calls st; executed := executed st;
     prompts := prompts st; closed := closed st |}.

Definition log_executed (st : Session) (query : string) : Session :=
  {| messages := messages st; api_calls := api_calls st;
     executed := executed st ++ [query];
     prompts := prompts st; closed := closed st |}.

Definition prompted (st : Session) : Session :=
  {| messages := messages st; api_calls := api_calls st; executed := executed st;
     prompts := S (prompts st); closed := closed st |}.

(** [conn.close()] *)
Definition close (st : Session) : Session :=
  {| messages := messages st; api_calls := api_calls st; executed := executed st;
     prompts := prompts st; closed := S (closed st) |}.

(** How the retry loop of lines 162..177 ends. *)
Inductive ModelCall :=
| Replied (response_content : string)
| GaveUp
| LoopExhausted.

(** Lines 164..177, from the loop test on; [calls] counts the network
    calls of the session. *)
Equations? call_model (W : World) (msgs : list Message) (num_tries calls : nat)
  : ModelCall * nat by wf (4 - num_tries) lt :=
  call_model W msgs num_tries calls with decide (num_tries < 4) := {
    | right _ := (LoopExhausted, calls)
    | left _ with api W calls msgs := {
        | ApiReply response_content := (Replied response_content, S calls)
        | ApiError e with decide (3 <= S num_tries) := {
            | left _ := (GaveUp, S calls)
            | right _ := call_model W msgs (S num_tries) (S calls) } } }.
Proof. lia. Qed.

(** Lines 195..200: the text added to [result_string] for one statement. *)
Definition render (W : World) (query : string) (o : ExecutionOutcome) : string :=
  match o with
  | Success result =>
      Py.nl +:+ Py.nl +:+ "I ran `" +:+ query +:+ "` and it returned "
      +:+ Py.str_nat (length result) +:+ " rows. Here are the first few rows:"
      +:+ Py.nl +:+ tabulate W result +:+ Py.nl
  | Failure e =>
      Py.nl +:+ "Result for `" +:+ query +:+ "` was an error: " +:+ e +:+ Py.nl
  end.

(** Lines 190..200.  The list of outcomes is not kept by the program;
    it is the trace of what each [try] block ended with. *)
Fixpoint run_queries (W : World) (queries : list string) (st : Session)
    (result_string : string) (outcomes : list ExecutionOutcome)
  : Session * string * list ExecutionOutcome :=
  match queries with
  | [] => (st, result_string, outcomes)
  | query :: rest =>
      let o := db W (executed st) query in
      run_queries W rest (log_executed st query)
                  (result_string +:+ render W query o) (outcomes ++ [o])
  end.

Inductive TurnEnd :=
| Break (st : Session)
| Continue (st : Session).

(** Lines 182..206: from the reply to the end of the loop body. *)
Definition after_reply (W : World) (st : Session) (response_content : string) : TurnEnd :=
  let st := append_message st Assistant response_content in
  let queries := extract_queries_from_response response_content in
  let '(st, result_string, _) := run_queries W queries st EmptyString [] in
  let next_message := user_input W (prompts st) in
  let st := prompted st in
  if String.eqb (Py.lower next_message) "q" then Break st
  else Continue (append_message st User
                   (Py.nl +:+ next_message +:+ Py.nl +:+ result_string)).

Inductive Exit :=
| InvalidTable
| InitialQuit
| GivingUp
| UserQuit
| Raised (e : PyError)
| OutOfFuel.

(** Lines 158..208; [fuel] bounds the number of turns. *)
Fixpoint chat_loop (W : World) (fuel : nat) (st : Session) : Exit * Session :=
  match fuel with
  | 0 => (OutOfFuel, st)
  | S fuel' =>
      let '(r, calls) := call_model W (messages st) 0 (api_calls st) in
      let st := set_api_calls st calls in
      match r with
      | GaveUp => (GivingUp, st)
      | LoopExhausted =>
          (Raised (AttributeError "'NoneType' object has no attribute 'choices'"), st)
      | Replied response_content =>
          match after_reply W st response_content with
          | Break st => (UserQuit, close st)
          | Continue st => chat_loop W fuel' st
          end
      end
  end.

(** Lines 61..68. *)
Definition get_example_rows (sample : string -> option Row) (tables : gset string)
  : gmap string (option Row) :=
  set_fold (fun t example_rows => <[t := sample t]> example_rows) ∅ tables.

Definition seed_messages (schema_string question : string) : list Message :=
  [ {| role := System;
       content := "You are a helpful assistant that writes SQL queries in order to answer questions about a database." |};
    {| role := User;
       content :=
         "Hello, I have a database with the following schema:" +:+ Py.nl +:+ Py.nl
         +:+ schema_string +:+ Py.nl +:+ Py.nl
         +:+ "I'd like to work with you to answer a question I have. I can run several queries to get the answer, and tell you the results along the way. I'd like to use the fewest queries possible, so use joins where you can. If you're not sure what to do, you can ask me questions about the database or run intermediate queries to learn more about the data, but I can only run one query at a time."
         +:+ Py.nl +:+ Py.nl +:+ "The question I have is:" +:+ Py.nl +:+ Py.nl
         +:+ Py.dquote +:+ question +:+ Py.dquote |} ].

(** The connection is open, nothing has been sent or asked yet. *)
Definition fresh_session (msgs : list Message) : Session :=
  {| messages := msgs; api_calls := 0; executed := []; prompts := 0; closed := 0 |}.

(** Lines 44..57: the statement of [get_schema]. *)
Definition schema_query : string :=
  Py.join Py.nl
    [ EmptyString;
      "             SELECT";
      "                table_name,";
      "                column_name,";
      "                data_type,";
      "                is_nullable,";
      "                column_default";
      "            FROM";
      "                information_schema.columns";
      "            WHERE";
      "                table_schema = 'ctgov'";
      "            ORDER BY";
      "                ordinal_position;";
      "        " ].

(** Line 65: the statement of [get_example_rows] for one table. *)
Definition sample_query (table : string) : string :=
  "SELECT * FROM " +:+ table +:+ " LIMIT 1;".

(** The tables of a catalog, as line 129 collects them. *)
Definition catalog_tables (schema : list ColumnRow) : gset string :=
  list_to_set (table_name <$> schema).

(** The statements that lines 128..130 send on the connection before
    the first prompt: the catalog query, then one sample query per
    table.  Python fixes no order for the tables of a set; the model
    takes them as [elements] lists them. *)
Definition startup_statements (W : World) : list string :=
  schema_query :: (sample_query <$> elements (catalog_tables (schema_rows W))).

(** The session after lines 125..131. *)
Definition started_session (W : World) (msgs : list Message) : Session :=
  {| messages := msgs; api_calls := 0; executed := startup_statements W;
     prompts := 0; closed := 0 |}.

(** Lines 125..208, after the connection is open.  The catalog and the
    sample rows are what the world answers to the statements of lines
    128..130; a failure of one of those statements has no case here. *)
Definition main (W : World) (fuel : nat) : Exit * Session :=
  let schema := schema_rows W in
  let tables : gset string := list_to_set (table_name <$> schema) in
  let example_rows := get_example_rows (sample_row W) tables in
  match format_schema schema example_rows with
  | inl e => (Raised e, started_session W [])
  | inr schema_string =>
      if decide (selected_table W ∈ tables) then
        if String.eqb (Py.lower (initial_question W)) "q"
        then (InitialQuit, started_session W [])
        else chat_loop W fuel
               (started_session W
                  (seed_messages schema_string (initial_question W)))
      else (InvalidTable, started_session W [])
  end.

(** ** Notions the statements are written with *)

(** A delimiter starts here. *)
Definition starts_with_fence (s : string) : bool :=
  match s with
  | String c1 (String c2 (String c3 _)) => is_tick c1 && is_tick c2 && is_tick c3
  | _ => false
  end.

(** [s.count(fence)]: the delimiters of [s], counted from the left
    without overlap. *)
Fixpoint count_fences (s : string) : nat :=
  match s with
  | EmptyString => 0
  | String c1 s1 =>
      match s1 with
      | String c2 (String c3 rest) =>
          if is_tick c1 && is_tick c2 && is_tick c3
          then S (count_fences rest)
          else count_fences s1
      | _ => count_fences s1
      end
  end.

(** Every second element of a list, starting with the first one when
    [take] holds. *)
Fixpoint alternate {A} (take : bool) (l : list A) : list A :=
  match l with
  | [] => []
  | x :: rest =>
      if take then x :: alternate (negb take) rest
      else alternate (negb take) rest
  end.

(** The fenced regions of a reply: the segments at odd indices. *)
Definition fenced_regions (response_content : string) : list string :=
  alternate false (split_fence response_content).

Fixpoint all_space (s : string) : bool :=
  match s with
  | EmptyString => true
  | String c s' => Py.isspace c && all_space s'
  end.

(** The cleaning of a fenced segment in the words of the specification:
    only the token at the very start of the segment is a language tag. *)
Definition spec_strip_language_tag (segment : string) : string :=
  match segment with
  | String c1 (String c2 (String c3 rest)) =>
      if Ascii.eqb c1 "s" && Ascii.eqb c2 "q" && Ascii.eqb c3 "l"
      then rest else segment
  | _ => segment
  end.

Definition spec_candidate (segment : string) : string :=
  Py.strip (spec_strip_language_tag segment).

(** What the database answered to each statement of a list, given the
    statements sent before. *)
Fixpoint outcomes_of (W : World) (history : list string) (queries : list string)
  : list ExecutionOutcome :=
  match queries with
  | [] => []
  | query :: rest =>
      db W history query :: outcomes_of W (history ++ [query]) rest
  end.

(** The renderings of a list of statements, one after the other. *)
Fixpoint renderings (W : World) (history : list string) (queries : list string) : string :=
  match queries with
  | [] => EmptyString
  | query :: rest =>
      render W query (db W history query) +:+ renderings W (history ++ [query]) rest
  end.

Definition set_executed (st : Session) (l : list string) : Session :=
  {| messages := messages st; api_calls := api_calls st; executed := l;
     prompts := prompts st; closed := closed st |}.

(** An entry of the insertion-ordered dictionary for table [t], with at
    least one column. *)
Definition has_table (t : string) (tables : list (string * list ColumnRow)) : Prop :=
  ∃ columns, (t, columns) ∈ tables ∧ columns ≠ [].

(** The example value of line 83 when the table has an entry. *)
Definition example_text (sample : option Row) (column : ColumnRow) : string :=
  match sample with
  | None => "N/A"
  | Some row =>
      match row !! column_name column with
      | Some v => py_str v
      | None => "N/A"
      end
  end.

(** The description of a catalog whose tables all have an entry. *)
Definition described (example_rows : gmap string (option Row))
    (entry : string * list ColumnRow) : string :=
  "Table " +:+ entry.1 +:+ ":" +:+ Py.nl
  +:+ Py.join Py.nl
        (map (fun column =>
                column_line column
                  (example_text (default None (example_rows !! entry.1)) column))
             entry.2).

(** ** Sample inputs *)

(** A stand-in for the plain table format of the tabulate library: a
    line of column names, then one line per row.  The padding that
    aligns the columns is left out. *)
Definition tabulate_plain (rows : list Row) : string :=
  match rows with
  | [] => EmptyString
  | r :: _ =>
      Py.join Py.nl
        (Py.join "  " (map_to_list r).*1
         :: map (fun row => Py.join "  " (py_str <$> (map_to_list row).*2)) rows)
  end.

Definition users_id_column : ColumnRow :=
  {| table_name := "users"; column_name := "id"; data_type := "int";
     is_nullable := "NO"; column_default := PNone |}.

Definition users_catalog : list ColumnRow :=
  [ users_id_column;
    {| table_name := "users"; column_name := "name"; data_type := "text";
       is_nullable := "YES"; column_default := PNone |} ].

(** The sample-row mapping when the table has no row. *)
Definition users_without_rows : gmap string (option Row) := {[ "users" := None ]}.

Definition ann : Row := <["id" := PInt 1]> (<["name" := PStr "Ann"]> ∅).

Definition users_world (api_of : nat -> list Message -> ApiResult)
    (db_of : list string -> string -> ExecutionOutcome)
    (input_of : nat -> string) : World :=
  {| schema_rows := users_catalog;
     sample_row := fun _ => Some ann;
     selected_table := "users";
     initial_question := "how many users are there?";
     api := api_of;
     db := db_of;
     tabulate := tabulate_plain;
     user_input := input_of |}.

(** The model transport fails at every call. *)
Definition world_api_down : World :=
  users_world (fun _ _ => ApiError "Connection error.")
              (fun _ _ => Success [])
              (fun _ => "q").

(** The model answers with one fenced statement, the database with one
    row, and the user quits at the first follow-up prompt. *)
Definition world_count_users : World :=
  users_world (fun _ _ => ApiReply ("```sql" +:+ Py.nl
                                    +:+ "SELECT count(*) FROM users;"
                                    +:+ Py.nl +:+ "```"))
              (fun _ _ => Success [ {[ "count" := PInt 42 ]} ])
              (fun _ => "Q").

(** The server refuses the statement that names [userz] and answers one
    row to the others; the connection is the one of [connect_db]. *)
Definition mentions_userz (query : string) : bool :=
  bool_decide (query = "SELECT count(*) FROM userz;").

Definition typo_answer (query : string) : ExecutionOutcome :=
  if mentions_userz query
  then Failure "relation does not exist"
  else Success [ {[ "count" := PInt 42 ]} ].

Definition world_typo : World :=
  users_world (fun _ _ => ApiReply "no code here")
              (psycopg2_execute typo_answer)
              (fun _ => "thanks").

Definition twelve_rows : list Row :=
  (fun i => {[ "id" := PInt (Z.of_nat i) ]}) <$> seq 1 12.

Definition reply_sql_features : string :=
  "```sql" +:+ Py.nl +:+ "SELECT * FROM information_schema.sql_features;"
  +:+ Py.nl +:+ "```".

Definition reply_blank_fence : string := "``` ```".


(** ** Notions of the further properties *)

(** No character of the text is a backtick. *)
Fixpoint no_tick (s : string) : bool :=
  match s with
  | EmptyString => true
  | String c s' => negb (is_tick c) && no_tick s'
  end.

Definition reply_two_blocks : string :=
  "First:" +:+ fence +:+ "SELECT 1;" +:+ fence
  +:+ " then " +:+ fence +:+ " SELECT 2; " +:+ fence.

(** The character occurs in the text. *)
Fixpoint has_char (c : ascii) (s : string) : bool :=
  match s with
  | EmptyString => false
  | String c' s' => Ascii.eqb c c' || has_char c s'
  end.

(** The names of a list in the order in which they are first seen. *)
Definition first_seen (names : list string) : list string :=
  foldl (fun seen name => if bool_decide (name ∈ seen) then seen else seen ++ [name])
        [] names.

Definition orders_catalog : list ColumnRow :=
  [ users_id_column;
    {| table_name := "orders"; column_name := "id"; data_type := "int";
       is_nullable := "NO"; column_default := PNone |};
    {| table_name := "users"; column_name := "name"; data_type := "text";
       is_nullable := "YES"; column_default := PNone |} ].

(** The roles appended by [n] full turns. *)
Definition turn_roles (n : nat) : list Role :=
  concat (replicate n [Assistant; User]).

(** The candidates of the assistant messages of a conversation, in order. *)
Definition assistant_candidates (msgs : list Message) : list string :=
  flat_map (fun m =>
              match role m with
              | Assistant => extract_queries_from_response (content m)
              | _ => []
              end) msgs.

(** The user's text is the quit token. *)
Definition quits (next_message : string) : bool :=
  String.eqb (Py.lower next_message) "q".

(** The first model call fails, the next ones answer. *)
Definition world_flaky_once : World :=
  users_world (fun k _ => if (k =? 0)%nat then ApiError "timeout"
                          else ApiReply "try again")
              (fun _ _ => Success [])
              (fun _ => "q").

(** The user names a table that the catalog does not have. *)
Definition world_unknown_table : World :=
  {| schema_rows := users_catalog;
     sample_row := fun _ => Some ann;
     selected_table := "userz";
     initial_question := "how many users are there?";
     api := fun _ _ => ApiReply "unused";
     db := fun _ _ => Success [];
     tabulate := tabulate_plain;
     user_input := fun _ => "q" |}.

(** * Properties *)

(** ** Scanning a reply for delimiters *)

Section Scanning.

Lemma push_char_not_nil c l : push_char c l ≠ [].
Proof. by destruct l. Qed.

Lemma push_char_length c l : l ≠ [] → length (push_char c l) = length l.
Proof. by destruct l. Qed.

Lemma fence_append rest :
  fence +:+ rest = String "`" (String "`" (String "`" rest)).
Proof. reflexivity. Qed.

Lemma append_cons c (a b : string) : String c a +:+ b = String c (a +:+ b).
Proof. reflexivity. Qed.

Lemma starts_with_fence_true s :
  starts_with_fence s = true → ∃ rest, s = fence +:+ rest.
Proof.
  destruct s as [|c1 [|c2 [|c3 rest]]]; simpl; try done.
  unfold is_tick. intros H.
  apply andb_prop in H as [H H3]. apply andb_prop in H as [H1 H2].
  apply Ascii.eqb_eq in H1, H2, H3. subst. by exists rest.
Qed.

Lemma split_fence_at_fence rest :
  split_fence (fence +:+ rest) = EmptyString :: split_fence rest.
Proof. reflexivity. Qed.

Lemma split_fence_step c s :
  starts_with_fence (String c s) = false →
  split_fence (String c s) = push_char c (split_fence s).
Proof.
  destruct s as [|c2 [|c3 rest]]; try done.
  cbn [starts_with_fence split_fence]. by intros ->.
Qed.

Lemma count_fences_at_fence rest :
  count_fences (fence +:+ rest) = S (count_fences rest).
Proof. reflexivity. Qed.

Lemma count_fences_step c s :
  starts_with_fence (String c s) = false →
  count_fences (String c s) = count_fences s.
Proof.
  destruct s as [|c2 [|c3 rest]]; try done.
  cbn [starts_with_fence count_fences]. by intros ->.
Qed.

(** Induction along the scan: either a delimiter starts at the current
    position and three characters are consumed, or one character is. *)
Lemma fence_scan_ind (P : string → Prop) :
  P EmptyString →
  (∀ rest, P rest → P (fence +:+ rest)) →
  (∀ c s, starts_with_fence (String c s) = false → P s → P (String c s)) →
  ∀ s, P s.
Proof.
  intros Hnil Hfence Hchar s.
  remember (String.length s) as n eqn:Hn. revert s Hn.
  induction n as [n IH] using lt_wf_ind. intros s ->.
  destruct s as [|c s]; [done|].
  destruct (starts_with_fence (String c s)) eqn:E.
  - destruct (starts_with_fence_true _ E) as [rest Hrest].
    assert (String.length rest < String.length (String c s)) as Hlt.
    { rewrite Hrest, fence_append. simpl. lia. }
    rewrite Hrest. by apply Hfence, (IH (String.length rest)).
  - apply Hchar; [done|]. apply (IH (String.length s)); [simpl; lia | done].
Qed.

Lemma split_fence_not_nil s : split_fence s ≠ [].
Proof.
  induction s as [| rest _ | c s E _] using fence_scan_ind; [done | done |].
  rewrite split_fence_step by done. apply push_char_not_nil.
Qed.

Lemma split_fence_length s : length (split_fence s) = S (count_fences s).
Proof.
  induction s as [| rest IH | c s E IH] using fence_scan_ind.
  - done.
  - rewrite split_fence_at_fence, count_fences_at_fence. simpl. by rewrite IH.
  - rewrite split_fence_step, count_fences_step by done.
    rewrite push_char_length; [done | apply split_fence_not_nil].
Qed.

Lemma join_push_char sep c l :
  l ≠ [] → Py.join sep (push_char c l) = String c (Py.join sep l).
Proof. destruct l as [|h [|h' t]]; done. Qed.

Lemma join_cons sep x l :
  l ≠ [] → Py.join sep (x :: l) = x +:+ sep +:+ Py.join sep l.
Proof. by destruct l. Qed.

Lemma append_assoc (a b c : string) : (a +:+ b) +:+ c = a +:+ (b +:+ c).
Proof. induction a as [|x a IH]; [done | by rewrite !append_cons, IH]. Qed.

Lemma append_nil_r (a : string) : a +:+ EmptyString = a.
Proof. induction a as [|x a IH]; [done | by rewrite append_cons, IH]. Qed.

Lemma length_append (a b : string) :
  String.length (a +:+ b) = String.length a + String.length b.
Proof.
  induction a as [|x a IH]; [done|].
  rewrite append_cons. cbn [String.length]. by rewrite IH.
Qed.


(** Splitting loses nothing: joining the segments with the delimiter
    gives the reply back. *)
Lemma join_split_fence s : Py.join fence (split_fence s) = s.
Proof.
  induction s as [| rest IH | c s E IH] using fence_scan_ind.
  - done.
  - rewrite split_fence_at_fence, join_cons by apply split_fence_not_nil.
    by rewrite IH.
  - rewrite split_fence_step by done.
    rewrite join_push_char by apply split_fence_not_nil. by rewrite IH.
Qed.

Lemma split_fence_no_fence s :
  (∀ a b, s ≠ a +:+ fence +:+ b) → split_fence s = [s].
Proof.
  induction s as [| rest IH | c s E IH] using fence_scan_ind; intros H.
  - done.
  - by destruct (H EmptyString rest).
  - rewrite split_fence_step by done. rewrite IH; [done|].
    intros a b ->. by apply (H (String c a) b).
Qed.

End Scanning.

(** ** Extraction of the statement candidates *)

Section Extraction.

Lemma succ_mod2 i : (S i mod 2 =? 0)%nat = negb (i mod 2 =? 0)%nat.
Proof.
  pose proof (Nat.div_mod_eq i 2). pose proof (Nat.div_mod_eq (S i) 2).
  pose proof (Nat.mod_upper_bound i 2). pose proof (Nat.mod_upper_bound (S i) 2).
  destruct (Nat.eqb_spec (S i mod 2) 0), (Nat.eqb_spec (i mod 2) 0);
    cbn [negb]; try done; lia.
Qed.

Lemma extract_from_index (l : list string) i :
  flat_map (fun '(i, chunk) =>
              if negb (i mod 2 =? 0)%nat then [Py.strip (replace_sql chunk)] else [])
           (Py.enumerate_from i l)
  = map (fun chunk => Py.strip (replace_sql chunk))
        (alternate (negb (i mod 2 =? 0)%nat) l).
Proof.
  revert i. induction l as [|x l IH]; intros i; [done|].
  cbn [Py.enumerate_from flat_map alternate]. rewrite IH, succ_mod2.
  by destruct (i mod 2 =? 0)%nat.
Qed.

(** The candidates are the fenced regions, each one cleaned, in order. *)
Lemma extract_fenced_regions response_content :
  extract_queries_from_response response_content
  = map (fun chunk => Py.strip (replace_sql chunk)) (fenced_regions response_content).
Proof. apply (extract_from_index _ 0). Qed.

Lemma isspace_not_s c : Py.isspace c = true → Ascii.eqb c "s" = false.
Proof.
  intros H. destruct (Ascii.eqb_spec c "s") as [->|]; [|done].
  by vm_compute in H.
Qed.

Lemma replace_sql_all_space s : all_space s = true → replace_sql s = s.
Proof.
  induction s as [|c1 s1 IH]; [done|].
  cbn [all_space]. intros [H1 Hs]%andb_prop.
  specialize (IH Hs). cbn [replace_sql].
  rewrite (isspace_not_s _ H1). cbn [andb].
  rewrite IH. by destruct s1 as [|c2 [|c3 rest]].
Qed.

Lemma lstrip_all_space s : all_space s = true → Py.lstrip s = EmptyString.
Proof.
  induction s as [|c s IH]; [done|].
  cbn [all_space Py.lstrip]. intros [-> Hs]%andb_prop. auto.
Qed.

Lemma candidate_all_space s :
  all_space s = true → Py.strip (replace_sql s) = EmptyString.
Proof.
  intros H. rewrite replace_sql_all_space by done.
  unfold Py.strip. by rewrite lstrip_all_space.
Qed.


End Extraction.

(** C2.  On a fenced statement that names [information_schema.sql_features]
    the extractor deletes the three letters inside the statement as well:
    the candidate differs from the segment with only its leading tag and
    its surrounding whitespace removed. *)
Theorem extract_deletes_sql_inside_statement :
  fenced_regions reply_sql_features
  = [ "sql" +:+ Py.nl +:+ "SELECT * FROM information_schema.sql_features;" +:+ Py.nl ]
  ∧ map spec_candidate (fenced_regions reply_sql_features)
    = [ "SELECT * FROM information_schema.sql_features;" ]
  ∧ extract_queries_from_response reply_sql_features
    = [ "SELECT * FROM information_schema._features;" ].
Proof. by vm_compute. Qed.

(** C5, as stated, fails: a fenced region that holds one space gives a
    candidate, the empty string. *)
Lemma extract_keeps_empty_candidate :
  fenced_regions reply_blank_fence = [ " " ]
  ∧ extract_queries_from_response reply_blank_fence = [ EmptyString ].
Proof. by vm_compute. Qed.

(** C5, amended.  Extraction keeps one candidate for every fenced region,
    empty or not: the candidates are as many as the fenced regions, and
    an empty or whitespace-only region contributes the empty string at
    its position. *)
Theorem extract_keeps_every_fenced_region response_content :
  length (extract_queries_from_response response_content)
  = length (fenced_regions response_content)
  ∧ ∀ i segment,
      fenced_regions response_content !! i = Some segment →
      all_space segment = true →
      extract_queries_from_response response_content !! i = Some EmptyString.
Proof.
  rewrite extract_fenced_regions. split; [by rewrite length_map|].
  intros i segment Hi Hspace.
  by rewrite list_lookup_fmap, Hi, <- (candidate_all_space segment Hspace).
Qed.



(** ** The schema description *)

Section Schema.

Context (example_rows : gmap string (option Row)).

Lemma for_each_ret {A B} (f : A → Raises B) (g : A → B) l :
  (∀ a, a ∈ l → f a = ret (g a)) → for_each f l = ret (map g l).
Proof.
  induction l as [|a l IH]; intros H; [done|].
  cbn [for_each map]. rewrite (H a) by left. cbn [bind ret].
  rewrite IH; [done|]. intros b Hb. apply H. by right.
Qed.

Lemma for_each_raise {A B} (f : A → Raises B) (P : PyError → Prop) l a :
  a ∈ l → (∃ e, f a = raise e) →
  (∀ b e, b ∈ l → f b = raise e → P e) →
  ∃ e, for_each f l = raise e ∧ P e.
Proof.
  induction l as [|b l IH]; intros Ha Hfail HP; [by apply elem_of_nil in Ha|].
  cbn [for_each]. destruct (f b) as [e|y] eqn:Hb.
  - exists e. split; [done|]. apply (HP b); [left | done].
  - cbn [bind]. apply elem_of_cons in Ha as [->|Ha].
    { destruct Hfail as [e He]. rewrite He in Hb. discriminate. }
    destruct IH as (e & He & HPe); [done | done | |].
    { intros c e Hc. apply HP. by right. }
    exists e. by rewrite He.
Qed.

Lemma tables_append_new tables row :
  has_table (table_name row) (tables_append tables row).
Proof.
  induction tables as [|[t columns] tables IH]; cbn [tables_append].
  - exists [row]. split; [left | done].
  - destruct (String.eqb_spec t (table_name row)) as [->|Hne].
    + exists (columns ++ [row]). split; [left | by destruct columns].
    + destruct IH as (cs & Hin & Hcs). exists cs. split; [by right | done].
Qed.

Lemma tables_append_keeps t tables row :
  has_table t tables → has_table t (tables_append tables row).
Proof.
  intros (cs & Hin & Hcs).
  induction tables as [|[t' columns] tables IH]; [by apply elem_of_nil in Hin|].
  cbn [tables_append]. apply elem_of_cons in Hin as [[= <- <-]|Hin].
  - destruct (String.eqb_spec t (table_name row)).
    + exists (cs ++ [row]). split; [left | by destruct cs].
    + exists cs. split; [left | done].
  - destruct (String.eqb_spec t' (table_name row)).
    + exists cs. split; [by right | done].
    + destruct (IH Hin) as (cs' & Hin' & Hcs'). exists cs'. split; [by right | done].
Qed.

Lemma tables_append_origin t columns tables row :
  (t, columns) ∈ tables_append tables row →
  t = table_name row ∨ ∃ columns', (t, columns') ∈ tables.
Proof.
  induction tables as [|[t' cs] tables IH]; cbn [tables_append].
  - intros [= -> ->]%list_elem_of_singleton. by left.
  - destruct (String.eqb_spec t' (table_name row)) as [Heq|Hne].
    + intros [[= -> ->]|Hin]%elem_of_cons.
      * by left.
      * right. exists columns. by right.
    + intros [[= -> ->]|Hin]%elem_of_cons.
      * right. exists cs. left.
      * destruct (IH Hin) as [->|[cs' Hcs']]; [by left|].
        right. exists cs'. by right.
Qed.

Lemma foldl_tables_has_table schema : ∀ tables row,
  (row ∈ schema ∨ has_table (table_name row) tables) →
  has_table (table_name row) (foldl tables_append tables schema).
Proof.
  induction schema as [|r schema IH]; intros tables row H; cbn [foldl].
  - destruct H as [H|H]; [by apply elem_of_nil in H | done].
  - apply IH. destruct H as [[->|H]%elem_of_cons|H].
    + right. apply tables_append_new.
    + by left.
    + right. by apply tables_append_keeps.
Qed.

Lemma foldl_tables_origin schema : ∀ tables t columns,
  (t, columns) ∈ foldl tables_append tables schema →
  (∃ row, row ∈ schema ∧ table_name row = t) ∨ ∃ columns', (t, columns') ∈ tables.
Proof.
  induction schema as [|r schema IH]; intros tables t columns H; cbn [foldl] in H.
  - right. by exists columns.
  - destruct (IH _ _ _ H) as [(row & Hrow & <-)|[cs Hcs]].
    + left. exists row. split; [by right | done].
    + destruct (tables_append_origin _ _ _ _ Hcs) as [->|Hold].
      * left. exists r. split; [left | done].
      * by right.
Qed.

(** Every table of the catalog gets a group with at least one column. *)
Lemma group_tables_has_table schema row :
  row ∈ schema → has_table (table_name row) (group_tables schema).
Proof. intros H. apply foldl_tables_has_table. by left. Qed.

(** Every group is the group of a table of the catalog. *)
Lemma group_tables_origin schema t columns :
  (t, columns) ∈ group_tables schema → ∃ row, row ∈ schema ∧ table_name row = t.
Proof.
  intros H. destruct (foldl_tables_origin _ _ _ _ H) as [?|[cs Hcs]]; [done|].
  by apply elem_of_nil in Hcs.
Qed.

Lemma example_value_present table column :
  is_Some (example_rows !! table) →
  example_value example_rows table column
  = ret (example_text (default None (example_rows !! table)) column).
Proof. intros [sample Hs]. unfold example_value. rewrite Hs. by destruct sample. Qed.

Lemma table_string_present entry :
  is_Some (example_rows !! entry.1) →
  table_string example_rows entry = ret (described example_rows entry).
Proof.
  destruct entry as [table columns]. intros H. unfold table_string, described.
  rewrite (for_each_ret _
             (fun column => column_line column
                (example_text (default None (example_rows !! table)) column))).
  - done.
  - intros column _. by rewrite example_value_present.
Qed.

Lemma table_string_missing table columns :
  example_rows !! table = None → columns ≠ [] →
  table_string example_rows (table, columns) = raise (KeyError table).
Proof.
  intros Hnone Hne. destruct columns as [|column columns]; [done|].
  unfold table_string. cbn [for_each]. unfold example_value. by rewrite Hnone.
Qed.

Lemma table_string_raises entry e :
  table_string example_rows entry = raise e →
  e = KeyError entry.1 ∧ example_rows !! entry.1 = None.
Proof.
  destruct entry as [table columns]. cbn [fst].
  destruct (example_rows !! table) as [sample|] eqn:Hs.
  - rewrite table_string_present by (cbn [fst]; rewrite Hs; eauto). done.
  - unfold table_string.
    destruct columns as [|column columns]; [done|].
    cbn [for_each]. unfold example_value. rewrite Hs. cbn [bind raise].
    by intros [= <-].
Qed.

End Schema.

(** C9.  When every table of the catalog has an entry in the sample-row
    mapping (a row, or None for a table without rows), [format_schema]
    returns its text without raising, and the example value of a column
    is the placeholder when the table has no row or the sample row has
    no such column. *)
Theorem format_schema_degrades_to_placeholder
    schema (example_rows : gmap string (option Row)) :
  (∀ row, row ∈ schema → is_Some (example_rows !! table_name row)) →
  format_schema schema example_rows
  = ret (Py.join (Py.nl +:+ Py.nl)
           (map (described example_rows) (group_tables schema)))
  ∧ (∀ table column,
       example_rows !! table = Some None →
       example_value example_rows table column = ret "N/A")
  ∧ (∀ table sample column,
       example_rows !! table = Some (Some sample) →
       sample !! column_name column = None →
       example_value example_rows table column = ret "N/A").
Proof.
  intros Hkeys. split_and!.
  - unfold format_schema.
    rewrite (for_each_ret _ (described example_rows)); [done|].
    intros [t columns] Hin. apply table_string_present. cbn [fst].
    destruct (group_tables_origin _ _ _ Hin) as (row & Hrow & <-). auto.
  - intros table column H. unfold example_value. by rewrite H.
  - intros table sample column H Hcol. unfold example_value. by rewrite H, Hcol.
Qed.

Lemma format_schema_degrades_to_placeholder_witness :
  (∀ row, row ∈ users_catalog → is_Some (users_without_rows !! table_name row))
  ∧ format_schema users_catalog users_without_rows
    = ret (Py.join (Py.nl +:+ Py.nl)
             (map (described users_without_rows) (group_tables users_catalog)))
  ∧ (∀ table column,
       users_without_rows !! table = Some None →
       example_value users_without_rows table column = ret "N/A")
  ∧ (∀ table sample column,
       users_without_rows !! table = Some (Some sample) →
       sample !! column_name column = None →
       example_value users_without_rows table column = ret "N/A").
Proof.
  assert (∀ row, row ∈ users_catalog →
                 is_Some (users_without_rows !! table_name row)) as Hkeys.
  { intros row Hrow. apply list_elem_of_In in Hrow. simpl in Hrow.
    destruct Hrow as [<-|[<-|[]]]; by eexists. }
  split; [exact Hkeys|].
  exact (format_schema_degrades_to_placeholder users_catalog users_without_rows Hkeys).
Defined.

(** C10.  When some table of the catalog is no key of the sample-row
    mapping, [format_schema] raises a [KeyError] for a catalog table
    that the mapping lacks. *)
Theorem format_schema_requires_every_table
    schema (example_rows : gmap string (option Row)) row :
  row ∈ schema →
  example_rows !! table_name row = None →
  ∃ t, format_schema schema example_rows = raise (KeyError t)
       ∧ example_rows !! t = None
       ∧ ∃ r, r ∈ schema ∧ table_name r = t.
Proof.
  intros Hrow Hnone.
  destruct (group_tables_has_table schema row Hrow) as (columns & Hin & Hne).
  destruct (for_each_raise (table_string example_rows)
              (fun e => ∃ t, e = KeyError t ∧ example_rows !! t = None
                             ∧ ∃ r, r ∈ schema ∧ table_name r = t)
              (group_tables schema) _ Hin) as (e & He & t & -> & Ht & Hr).
  - exists (KeyError (table_name row)). by apply table_string_missing.
  - intros [t cs] e Hb Hraise.
    destruct (table_string_raises _ _ _ Hraise) as [-> Ht]. cbn [fst] in *.
    exists t. split_and!; [done | done |]. by eapply group_tables_origin.
  - exists t. unfold format_schema. by rewrite He.
Qed.

Lemma format_schema_requires_every_table_witness :
  users_id_column ∈ users_catalog
  ∧ (∅ : gmap string (option Row)) !! table_name users_id_column = None
  ∧ ∃ t, format_schema users_catalog ∅ = raise (KeyError t)
         ∧ (∅ : gmap string (option Row)) !! t = None
         ∧ ∃ r, r ∈ users_catalog ∧ table_name r = t.
Proof.
  assert (users_id_column ∈ users_catalog) as Hin by left.
  split; [exact Hin|]. split; [reflexivity|].
  exact (format_schema_requires_every_table users_catalog ∅ users_id_column
           Hin eq_refl).
Defined.

(** ** The retry loop *)

Section Retry.

Context (W : World) (msgs : list Message).

Lemma call_model_step num_tries calls :
  call_model W msgs num_tries calls =
  if decide (num_tries < 4) then
    match api W calls msgs with
    | ApiReply response_content => (Replied response_content, S calls)
    | ApiError e =>
        if decide (3 <= S num_tries) then (GaveUp, S calls)
        else call_model W msgs (S num_tries) (S calls)
    end
  else (LoopExhausted, calls).
Proof.
  simp call_model. destruct (decide (num_tries < 4)); simpl; [|done].
  destruct (api W calls msgs); simpl; [done|].
  destruct (decide (3 <= S num_tries)); simpl; [done|].
  by simp call_model.
Qed.

(** An immediate success costs one network call. *)
Lemma call_model_first_success calls response_content :
  api W calls msgs = ApiReply response_content →
  call_model W msgs 0 calls = (Replied response_content, S calls).
Proof. intros H. rewrite call_model_step, H. done. Qed.

(** Three failures in a row end the loop: the fourth attempt that the
    loop test allows is never made. *)
Lemma call_model_three_failures calls e1 e2 e3 :
  api W calls msgs = ApiError e1 →
  api W (S calls) msgs = ApiError e2 →
  api W (S (S calls)) msgs = ApiError e3 →
  call_model W msgs 0 calls = (GaveUp, 3 + calls).
Proof.
  intros H1 H2 H3.
  rewrite call_model_step, H1. cbn [decide]. simpl.
  rewrite call_model_step, H2. simpl.
  rewrite call_model_step, H3. done.
Qed.

(** From a fresh counter the loop makes one, two or three calls, and
    never leaves through its test with no response. *)
Lemma call_model_at_most_three calls :
  ∃ r n, call_model W msgs 0 calls = (r, n + calls)
         ∧ 1 <= n <= 3 ∧ r ≠ LoopExhausted.
Proof.
  rewrite call_model_step. simpl.
  destruct (api W calls msgs) as [r1|e1].
  { exists (Replied r1), 1. split_and!; [done | lia | lia | done]. }
  rewrite call_model_step. simpl.
  destruct (api W (S calls) msgs) as [r2|e2].
  { exists (Replied r2), 2. split_and!; [done | lia | lia | done]. }
  rewrite call_model_step. simpl.
  destruct (api W (S (S calls)) msgs) as [r3|e3].
  { exists (Replied r3), 3. split_and!; [done | lia | lia | done]. }
  exists GaveUp, 3. split_and!; [done | lia | lia | done].
Qed.

End Retry.

(** C1.  With a model transport that fails at every call, the retry
    loop gives up after three network calls, not four: two retries
    follow the first failure. *)
Theorem call_model_gives_up_after_three_calls msgs calls :
  call_model world_api_down msgs 0 calls = (GaveUp, 3 + calls).
Proof. by apply (call_model_three_failures _ _ _ "Connection error." "Connection error." "Connection error."). Qed.


(** ** Executing the candidates *)

Section Execution.

Context (W : World).

Lemma set_executed_same st : set_executed st (executed st) = st.
Proof. by destruct st. Qed.

Lemma run_queries_trace queries : ∀ st result_string outcomes,
  run_queries W queries st result_string outcomes
  = (set_executed st (executed st ++ queries),
     result_string +:+ renderings W (executed st) queries,
     outcomes ++ outcomes_of W (executed st) queries).
Proof.
  induction queries as [|query rest IH]; intros st result_string outcomes.
  - cbn [run_queries renderings outcomes_of].
    by rewrite !app_nil_r, set_executed_same, append_nil_r.
  - cbn [run_queries renderings outcomes_of]. rewrite IH.
    cbn [log_executed executed]. unfold set_executed. cbn.
    by rewrite <- !app_assoc, append_assoc.
Qed.

Lemma outcomes_of_length queries : ∀ history,
  length (outcomes_of W history queries) = length queries.
Proof.
  induction queries as [|query rest IH]; intros history; [done|].
  cbn [outcomes_of length]. by rewrite IH.
Qed.

Lemma outcomes_of_lookup queries : ∀ history i query,
  queries !! i = Some query →
  outcomes_of W history queries !! i
  = Some (db W (history ++ take i queries) query).
Proof.
  induction queries as [|q rest IH]; intros history i query Hi; [done|].
  destruct i as [|i].
  - injection Hi as ->. cbn. by rewrite app_nil_r.
  - cbn [outcomes_of]. cbn in Hi. rewrite lookup_cons.
    rewrite (IH _ _ _ Hi). cbn [take]. by rewrite <- app_assoc.
Qed.

End Execution.

(** One outcome per candidate, in list order, each the answer of the
    connection to that candidate after the statements sent before it;
    the loop goes on after a failure and the feedback is the renderings
    in the same order. *)
Lemma run_queries_outcomes_in_order (W : World) queries st :
  ∃ st' result_string outcomes,
    run_queries W queries st EmptyString [] = (st', result_string, outcomes)
    ∧ executed st' = executed st ++ queries
    ∧ length outcomes = length queries
    ∧ (∀ i query,
         queries !! i = Some query →
         outcomes !! i = Some (db W (executed st ++ take i queries) query))
    ∧ result_string = renderings W (executed st) queries.
Proof.
  eexists _, _, _. split; [apply run_queries_trace|].
  cbn [app]. split_and!.
  - done.
  - apply outcomes_of_length.
  - intros i query Hi. by apply outcomes_of_lookup.
  - done.
Qed.

Section AbortedTransaction.

Context (answer : string → ExecutionOutcome).

Lemma transaction_aborted_app history more :
  transaction_aborted answer (history ++ more)
  = transaction_aborted answer history || transaction_aborted answer more.
Proof. apply existsb_app. Qed.

Lemma psycopg2_execute_failure history query e :
  psycopg2_execute answer history query = Failure e →
  transaction_aborted answer (history ++ [query]) = true.
Proof.
  unfold psycopg2_execute. rewrite transaction_aborted_app.
  destruct (transaction_aborted answer history) eqn:E; [done|].
  intros H. cbn. by rewrite H.
Qed.

(** On the connection of [connect_db], once a statement of the list has
    failed, every later statement of the list fails with the message of
    the aborted transaction. *)
Lemma aborted_transaction_fails_later_statements (W : World) queries history i j e query :
  db W = psycopg2_execute answer →
  i < j →
  outcomes_of W history queries !! i = Some (Failure e) →
  queries !! j = Some query →
  outcomes_of W history queries !! j = Some (Failure aborted_message).
Proof.
  intros Hdb Hij Hi Hj.
  destruct (lookup_lt_is_Some_2 queries i) as [qi Hqi].
  { apply lookup_lt_Some in Hj. lia. }
  rewrite (outcomes_of_lookup _ _ _ _ _ Hqi), Hdb in Hi. injection Hi as Hi.
  apply psycopg2_execute_failure in Hi.
  rewrite (outcomes_of_lookup _ _ _ _ _ Hj), Hdb. f_equal.
  unfold psycopg2_execute.
  assert (take j queries = take (S i) queries ++ drop (S i) (take j queries)) as ->.
  { rewrite <- (take_drop (S i) (take j queries)) at 1.
    by rewrite take_take, Nat.min_l by lia. }
  rewrite (take_S_r _ _ _ Hqi), !app_assoc.
  by rewrite transaction_aborted_app, Hi.
Qed.

End AbortedTransaction.

(** C3.  On the connection of [connect_db] the second statement of a
    list is refused after the first one failed, although the server
    answers it when it is sent alone: both outcomes are failures and
    the feedback reports two errors. *)
Theorem failed_statement_fails_the_next_one :
  (run_queries world_typo
     ["SELECT count(*) FROM userz;"; "SELECT count(*) FROM users;"]
     (started_session world_typo []) EmptyString []).2
  = [ Failure "relation does not exist"; Failure aborted_message ]
  ∧ (run_queries world_typo
       ["SELECT count(*) FROM userz;"; "SELECT count(*) FROM users;"]
       (started_session world_typo []) EmptyString []).1.2
    = Py.nl +:+ "Result for `SELECT count(*) FROM userz;` was an error: relation does not exist"
      +:+ Py.nl +:+ Py.nl
      +:+ "Result for `SELECT count(*) FROM users;` was an error: current transaction is aborted, commands ignored until end of transaction block"
      +:+ Py.nl
  ∧ (run_queries world_typo ["SELECT count(*) FROM users;"]
       (started_session world_typo []) EmptyString []).2
    = [ Success [ {[ "count" := PInt 42 ]} ] ].
Proof. by vm_compute. Qed.

(** C6.  A result of twelve rows is rendered with all of its twelve
    rows under the announcement of the first few rows; and whatever the
    table renderer, the whole result is handed to it. *)
Theorem render_shows_every_row :
  render world_typo "SELECT id FROM users;" (Success twelve_rows)
  = Py.nl +:+ Py.nl
    +:+ "I ran `SELECT id FROM users;` and it returned 12 rows. Here are the first few rows:"
    +:+ Py.nl
    +:+ Py.join Py.nl
          ["id"; "1"; "2"; "3"; "4"; "5"; "6"; "7"; "8"; "9"; "10"; "11"; "12"]
    +:+ Py.nl
  ∧ ∀ (W : World) query result,
      render W query (Success result)
      = Py.nl +:+ Py.nl +:+ "I ran `" +:+ query +:+ "` and it returned "
        +:+ Py.str_nat (length result) +:+ " rows. Here are the first few rows:"
        +:+ Py.nl +:+ tabulate W result +:+ Py.nl.
Proof. split; [by vm_compute | done]. Qed.

(** The text for a failed statement holds the statement and the message. *)
Lemma render_failure (W : World) query e :
  render W query (Failure e)
  = Py.nl +:+ "Result for `" +:+ query +:+ "` was an error: " +:+ e +:+ Py.nl.
Proof. done. Qed.

(** ** One turn and the whole session *)

(** C7.  A reply without delimiter gives no candidate; no statement is
    sent to the database, the feedback text is empty, and the turn goes
    on to ask the user: it ends the loop on a quit and otherwise appends
    the user's text, followed by the empty feedback, for the next turn. *)
Theorem reply_without_fence_runs_nothing (W : World) st response_content :
  (∀ a b, response_content ≠ a +:+ fence +:+ b) →
  extract_queries_from_response response_content = []
  ∧ run_queries W (extract_queries_from_response response_content)
      (append_message st Assistant response_content) EmptyString []
    = (append_message st Assistant response_content, EmptyString, [])
  ∧ after_reply W st response_content
    = let st1 := prompted (append_message st Assistant response_content) in
      let next_message := user_input W (prompts st) in
      if String.eqb (Py.lower next_message) "q" then Break st1
      else Continue (append_message st1 User
                       (Py.nl +:+ next_message +:+ Py.nl +:+ EmptyString)).
Proof.
  intros Hno.
  assert (extract_queries_from_response response_content = []) as Hex.
  { rewrite extract_fenced_regions. unfold fenced_regions.
    by rewrite split_fence_no_fence. }
  split_and!; [done | by rewrite Hex |].
  unfold after_reply. by rewrite Hex.
Qed.

Lemma reply_without_fence_runs_nothing_witness :
  (∀ a b, "no" ≠ a +:+ fence +:+ b)
  ∧ extract_queries_from_response "no" = []
  ∧ run_queries world_typo (extract_queries_from_response "no")
      (append_message (fresh_session []) Assistant "no") EmptyString []
    = (append_message (fresh_session []) Assistant "no", EmptyString, [])
  ∧ after_reply world_typo (fresh_session []) "no"
    = let st1 := prompted (append_message (fresh_session []) Assistant "no") in
      let next_message := user_input world_typo (prompts (fresh_session [])) in
      if String.eqb (Py.lower next_message) "q" then Break st1
      else Continue (append_message st1 User
                       (Py.nl +:+ next_message +:+ Py.nl +:+ EmptyString)).
Proof.
  assert (∀ a b, "no" ≠ a +:+ fence +:+ b) as Hno.
  { intros a b H. apply (f_equal String.length) in H.
    rewrite !length_append in H. unfold fence in H. simpl in H. lia. }
  split; [exact Hno|].
  exact (reply_without_fence_runs_nothing world_typo (fresh_session []) "no" Hno).
Defined.

Section Termination.

Context (W : World).

Lemma after_reply_closed st response_content :
  match after_reply W st response_content with
  | Break st' | Continue st' => closed st' = closed st
  end.
Proof.
  unfold after_reply. rewrite run_queries_trace.
  by destruct (String.eqb _ _).
Qed.

Lemma chat_loop_closed fuel : ∀ st,
  closed (chat_loop W fuel st).2
  = closed st + match (chat_loop W fuel st).1 with UserQuit => 1 | _ => 0 end.
Proof.
  induction fuel as [|fuel IH]; intros st; cbn [chat_loop].
  { cbn. lia. }
  destruct (call_model W (messages st) 0 (api_calls st)) as [r calls].
  destruct r as [response_content| |]; [|cbn; lia..].
  pose proof (after_reply_closed (set_api_calls st calls) response_content) as H.
  destruct (after_reply W (set_api_calls st calls) response_content) as [st'|st'].
  - cbn in *. lia.
  - rewrite IH. cbn in H. by rewrite H.
Qed.

(** The connection is closed once when the user quits at the follow-up
    prompt, and on no other way out of [main]. *)
Lemma main_closes_only_on_quit fuel :
  closed (main W fuel).2 = match (main W fuel).1 with UserQuit => 1 | _ => 0 end.
Proof.
  unfold main. destruct (format_schema _ _) as [e|schema_string]; [done|].
  destruct (decide _); [|done].
  destruct (String.eqb _ _); [done|].
  by rewrite chat_loop_closed.
Qed.

End Termination.

(** C4.  When every model call fails, the session ends on the give-up
    path after three calls and the connection has not been closed. *)
Theorem giving_up_leaves_connection_open fuel :
  (main world_api_down (S fuel)).1 = GivingUp
  ∧ api_calls (main world_api_down (S fuel)).2 = 3
  ∧ closed (main world_api_down (S fuel)).2 = 0.
Proof. by vm_compute. Qed.

(** The session of the specification: one fenced statement, one row,
    then the user quits; the connection is closed once. *)
Example session_count_users :
  let '(exit, st) := main world_count_users 5 in
  exit = UserQuit
  ∧ executed st
    = startup_statements world_count_users ++ ["SELECT count(*) FROM users;"]
  ∧ api_calls st = 1
  ∧ closed st = 1.
Proof. by vm_compute. Qed.

Example format_schema_users :
  format_schema users_catalog {[ "users" := Some ann ]}
  = ret ("Table users:" +:+ Py.nl +:+ "  id int NOT NULL; Example: 1"
         +:+ Py.nl +:+ "  name text NULL; Example: Ann").
Proof. by vm_compute. Qed.

(** * Further properties *)

(** ** The extractor *)

Section ExtractorFacts.

Lemma alternate_length {A} (l : list A) : ∀ take,
  length (alternate take l)
  = Nat.div2 (if take then S (length l) else length l).
Proof.
  induction l as [|x l IH]; intros take; [by destruct take|].
  cbn [alternate]. destruct take; cbn [negb length]; by rewrite IH.
Qed.

Lemma lstrip_head s :
  Py.lstrip s = EmptyString
  ∨ ∃ c rest, Py.lstrip s = String c rest ∧ Py.isspace c = false.
Proof.
  induction s as [|c s IH]; [by left|].
  cbn [Py.lstrip]. destruct (Py.isspace c) eqn:E; [done|].
  right. by exists c, s.
Qed.

Lemma rstrip_keeps_head c s :
  Py.isspace c = false → ∃ rest, Py.rstrip (String c s) = String c rest.
Proof.
  intros E. cbn [Py.rstrip]. destruct (Py.rstrip s) as [|c' r].
  - rewrite E. by exists EmptyString.
  - by exists (String c' r).
Qed.

Lemma rstrip_idempotent s : Py.rstrip (Py.rstrip s) = Py.rstrip s.
Proof.
  induction s as [|c s IH]; [done|].
  cbn [Py.rstrip]. destruct (Py.rstrip s) as [|c' r] eqn:E.
  - destruct (Py.isspace c) eqn:Ec; [done|]. cbn [Py.rstrip]. by rewrite Ec.
  - change (Py.rstrip (String c (String c' r)))
      with (match Py.rstrip (String c' r) with
            | EmptyString => if Py.isspace c then EmptyString else String c EmptyString
            | r0 => String c r0
            end).
    by rewrite IH.
Qed.

Lemma strip_is_stripped s :
  Py.lstrip (Py.strip s) = Py.strip s ∧ Py.rstrip (Py.strip s) = Py.strip s.
Proof.
  unfold Py.strip. split; [|apply rstrip_idempotent].
  destruct (lstrip_head s) as [->|(c & rest & -> & Hc)]; [done|].
  destruct (rstrip_keeps_head c rest Hc) as [r ->].
  cbn [Py.lstrip]. by rewrite Hc.
Qed.

Lemma starts_with_fence_append a x :
  starts_with_fence a = true → starts_with_fence (a +:+ x) = true.
Proof. by destruct a as [|c1 [|c2 [|c3 rest]]]. Qed.

Lemma split_fence_head_prefix s :
  ∃ h t x, split_fence s = h :: t ∧ s = h +:+ x.
Proof.
  pose proof (join_split_fence s) as Hjoin.
  destruct (split_fence s) as [|h t] eqn:E; [by destruct (split_fence_not_nil s)|].
  exists h, t. destruct t as [|h' t].
  - exists EmptyString. by rewrite append_nil_r.
  - exists (fence +:+ Py.join fence (h' :: t)). by rewrite <- Hjoin.
Qed.

Lemma split_fence_segments_clean s :
  ∀ chunk, chunk ∈ split_fence s → count_fences chunk = 0.
Proof.
  induction s as [| rest IH | c s E IH] using fence_scan_ind; intros chunk.
  - by intros ->%list_elem_of_singleton.
  - rewrite split_fence_at_fence. intros [->|H]%elem_of_cons; [done | auto].
  - rewrite split_fence_step by done.
    destruct (split_fence_head_prefix s) as (h & t & x & Hs & Hx).
    rewrite Hs in IH |- *. cbn [push_char].
    intros [->|H]%elem_of_cons; [|apply IH; by right].
    rewrite count_fences_step; [apply IH; left|].
    destruct (starts_with_fence (String c h)) eqn:Eh; [|done].
    apply (starts_with_fence_append _ x) in Eh.
    rewrite append_cons, <- Hx in Eh. congruence.
Qed.

Lemma split_fence_after_prose a b :
  no_tick a = true →
  split_fence (a +:+ fence +:+ b) = a :: split_fence b.
Proof.
  induction a as [|c a IH]; intros H; [done|].
  cbn [no_tick] in H. apply andb_prop in H as [Hc Ha].
  rewrite append_cons, split_fence_step, IH; [done | done |].
  destruct (a +:+ fence +:+ b) as [|c2 [|c3 r]]; try done.
  cbn [starts_with_fence]. by destruct (is_tick c).
Qed.

Lemma replace_sql_without_sql s :
  (∀ a b, s ≠ a +:+ "sql" +:+ b) → replace_sql s = s.
Proof.
  induction s as [|c1 s1 IH]; intros H; [done|].
  assert (replace_sql s1 = s1) as Hs1.
  { apply IH. intros a b ->. by apply (H (String c1 a) b). }
  cbn [replace_sql]. rewrite Hs1.
  destruct s1 as [|c2 [|c3 rest]]; try done.
  destruct (Ascii.eqb_spec c1 "s") as [->|]; [|done].
  destruct (Ascii.eqb_spec c2 "q") as [->|]; [|done].
  destruct (Ascii.eqb_spec c3 "l") as [->|]; [|done].
  by destruct (H EmptyString rest).
Qed.

Lemma has_char_s_of_sql s a b :
  s = a +:+ "sql" +:+ b → has_char "s" s = true.
Proof.
  intros ->. induction a as [|c a IH]; [done|].
  rewrite append_cons. cbn [has_char]. rewrite IH. apply orb_true_r.
Qed.

End ExtractorFacts.

(** X1.  A reply with n delimiters gives the candidates of its fenced
    regions, n/2 rounded up: a closing delimiter adds none. *)
Theorem extract_counts_half_the_fences response_content :
  length (extract_queries_from_response response_content)
  = Nat.div2 (S (count_fences response_content)).
Proof.
  rewrite extract_fenced_regions, length_map. unfold fenced_regions.
  by rewrite alternate_length, split_fence_length.
Qed.

(** X2.  No candidate starts or ends with a whitespace character:
    stripping it again on either side changes nothing. *)
Theorem extract_candidates_are_stripped response_content :
  Forall (fun query => Py.lstrip query = query ∧ Py.rstrip query = query)
         (extract_queries_from_response response_content).
Proof.
  rewrite extract_fenced_regions. apply Forall_fmap, Forall_forall.
  intros chunk _. apply strip_is_stripped.
Qed.

(** X3.  The split loses and invents nothing: the segments joined with
    the delimiter are the reply, they are one more than the delimiters,
    and no segment holds a delimiter. *)
Theorem split_fence_partitions_the_reply response_content :
  Py.join fence (split_fence response_content) = response_content
  ∧ length (split_fence response_content) = S (count_fences response_content)
  ∧ ∀ chunk, chunk ∈ split_fence response_content → count_fences chunk = 0.
Proof.
  split_and!;
    [apply join_split_fence | apply split_fence_length
     | apply split_fence_segments_clean].
Qed.

(** X4.  A fenced block after prose without backticks gives its cleaned
    body as the first candidate; the candidates of the text after the
    closing delimiter follow. *)
Theorem extract_reads_block_after_block prose body rest :
  no_tick prose = true →
  no_tick body = true →
  extract_queries_from_response (prose +:+ fence +:+ body +:+ fence +:+ rest)
  = Py.strip (replace_sql body) :: extract_queries_from_response rest.
Proof.
  intros Hprose Hbody. rewrite !extract_fenced_regions. unfold fenced_regions.
  by rewrite (split_fence_after_prose prose), (split_fence_after_prose body).
Qed.

Lemma extract_reads_block_after_block_witness :
  no_tick "First:" = true
  ∧ no_tick "SELECT 1;" = true
  ∧ extract_queries_from_response
      ("First:" +:+ fence +:+ "SELECT 1;" +:+ fence +:+ " done")
    = Py.strip (replace_sql "SELECT 1;")
      :: extract_queries_from_response " done".
Proof.
  split; [reflexivity|]. split; [reflexivity|].
  exact (extract_reads_block_after_block "First:" "SELECT 1;" " done"
           eq_refl eq_refl).
Defined.

(** X5.  When no fenced region holds the letters [sql] in a row, every
    candidate is its region with the surrounding whitespace removed and
    nothing else. *)
Theorem extract_only_strips_without_sql response_content :
  (∀ segment a b, segment ∈ fenced_regions response_content →
                  segment ≠ a +:+ "sql" +:+ b) →
  extract_queries_from_response response_content
  = map Py.strip (fenced_regions response_content).
Proof.
  intros H. rewrite extract_fenced_regions.
  apply map_ext_in. intros segment Hin%list_elem_of_In.
  rewrite replace_sql_without_sql; [done|]. intros a b. by apply H.
Qed.

Lemma extract_only_strips_without_sql_witness :
  (∀ segment a b, segment ∈ fenced_regions reply_two_blocks →
                  segment ≠ a +:+ "sql" +:+ b)
  ∧ extract_queries_from_response reply_two_blocks
    = map Py.strip (fenced_regions reply_two_blocks).
Proof.
  assert (∀ segment a b, segment ∈ fenced_regions reply_two_blocks →
                         segment ≠ a +:+ "sql" +:+ b) as Hno.
  { intros segment a b Hin Heq. apply has_char_s_of_sql in Heq.
    apply list_elem_of_In in Hin. vm_compute in Hin.
    destruct Hin as [<-|[<-|[]]]; by vm_compute in Heq. }
  split; [exact Hno|].
  exact (extract_only_strips_without_sql reply_two_blocks Hno).
Defined.

(** ** The schema description *)

Section GroupingFacts.

Lemma tables_append_keys tables row :
  (tables_append tables row).*1
  = if bool_decide (table_name row ∈ tables.*1) then tables.*1
    else tables.*1 ++ [table_name row].
Proof.
  induction tables as [|[t columns] tables IH]; [done|].
  cbn [tables_append]. destruct (String.eqb_spec t (table_name row)) as [->|Hne].
  - cbn [fmap list_fmap fst]. rewrite bool_decide_eq_true_2; [done | left].
  - cbn [fmap list_fmap fst] in *. rewrite IH.
    destruct (bool_decide_reflect (table_name row ∈ tables.*1)) as [Hin|Hout].
    + rewrite bool_decide_eq_true_2; [done | by right].
    + rewrite bool_decide_eq_false_2; [done|].
      intros [?|?]%elem_of_cons; congruence.
Qed.

Lemma tables_append_entry tables row t columns :
  NoDup tables.*1 →
  (t, columns) ∈ tables_append tables row →
  (t ≠ table_name row ∧ (t, columns) ∈ tables)
  ∨ (t = table_name row
     ∧ ∃ before, columns = before ++ [row]
                 ∧ ((t, before) ∈ tables ∨ (before = [] ∧ t ∉ tables.*1))).
Proof.
  induction tables as [|[t' cs] tables IH]; intros Hnd; cbn [tables_append].
  - intros [= -> ->]%list_elem_of_singleton. right. split; [done|].
    exists []. split; [done|]. right. split; [done | apply not_elem_of_nil].
  - cbn [fmap list_fmap fst] in Hnd. apply NoDup_cons in Hnd as [Hfresh Hnd].
    destruct (String.eqb_spec t' (table_name row)) as [Heq|Hne].
    + intros [[= -> ->]|Hin]%elem_of_cons.
      * right. split; [done|]. exists cs. split; [done|]. left. left.
      * left. split; [|by right].
        intros ->. apply Hfresh. rewrite Heq.
        apply list_elem_of_fmap. by exists (table_name row, columns).
    + intros [[= -> ->]|Hin]%elem_of_cons.
      * left. split; [done | left].
      * destruct (IH Hnd Hin) as [[Ht Hold]|(-> & before & -> & Hcase)].
        { left. split; [done | by right]. }
        right. split; [done|]. exists before. split; [done|].
        destruct Hcase as [Hold|[-> Hout]]; [left; by right|].
        right. split; [done|]. cbn [fmap list_fmap fst].
        intros [?|?]%elem_of_cons; congruence.
Qed.

Lemma group_tables_snoc schema row :
  group_tables (schema ++ [row]) = tables_append (group_tables schema) row.
Proof. unfold group_tables. by rewrite foldl_app. Qed.

Lemma first_seen_snoc names name :
  first_seen (names ++ [name])
  = if bool_decide (name ∈ first_seen names) then first_seen names
    else first_seen names ++ [name].
Proof. unfold first_seen. by rewrite foldl_app. Qed.

Lemma group_tables_keys schema :
  (group_tables schema).*1 = first_seen (table_name <$> schema).
Proof.
  induction schema as [|row schema IH] using rev_ind; [done|].
  rewrite group_tables_snoc, tables_append_keys, fmap_app.
  change (table_name <$> [row]) with [table_name row].
  by rewrite first_seen_snoc, IH.
Qed.

Lemma group_tables_keys_NoDup schema : NoDup (group_tables schema).*1.
Proof.
  induction schema as [|row schema IH] using rev_ind; [constructor|].
  rewrite group_tables_snoc, tables_append_keys.
  destruct (bool_decide_reflect (table_name row ∈ (group_tables schema).*1));
    [done|].
  apply NoDup_app. split_and!; [done | | apply NoDup_singleton].
  intros x Hx ->%list_elem_of_singleton. done.
Qed.

Lemma group_tables_covers schema row :
  row ∈ schema → table_name row ∈ (group_tables schema).*1.
Proof.
  intros H. destruct (group_tables_has_table schema row H) as (cs & Hin & _).
  apply list_elem_of_fmap. by exists (table_name row, cs).
Qed.

Lemma filter_table_none (t : string) (schema : list ColumnRow) :
  (∀ row, row ∈ schema → table_name row ≠ t) →
  filter (fun row => table_name row = t) schema = [].
Proof.
  induction schema as [|r schema IH]; intros H; [done|].
  rewrite filter_cons_False by (apply H; left).
  apply IH. intros row Hrow. apply H. by right.
Qed.

Lemma group_tables_columns schema t columns :
  (t, columns) ∈ group_tables schema →
  columns = filter (fun row => table_name row = t) schema.
Proof.
  revert t columns.
  induction schema as [|row schema IH] using rev_ind; intros t columns.
  { by intros ?%elem_of_nil. }
  rewrite group_tables_snoc, filter_app. intros Hin.
  destruct (tables_append_entry _ _ _ _ (group_tables_keys_NoDup schema) Hin)
    as [[Ht Hold]|(-> & before & -> & Hcase)].
  - rewrite (IH _ _ Hold), filter_cons_False by done. by rewrite app_nil_r.
  - rewrite filter_cons_True by done. f_equal.
    destruct Hcase as [Hold|[-> Hout]]; [by apply IH|].
    symmetry. apply filter_table_none.
    intros r Hr Heq. apply Hout. rewrite <- Heq.
    by apply group_tables_covers.
Qed.

End GroupingFacts.

(** X6.  The groups of [format_schema] are the tables of the catalog, once
    each, in the order in which the catalog first names them; every
    group holds the rows of its table, all of them, in catalog order. *)
Theorem group_tables_follows_the_catalog schema :
  (group_tables schema).*1 = first_seen (table_name <$> schema)
  ∧ NoDup (group_tables schema).*1
  ∧ ∀ t columns,
      (t, columns) ∈ group_tables schema →
      columns = filter (fun row => table_name row = t) schema.
Proof.
  split_and!;
    [apply group_tables_keys | apply group_tables_keys_NoDup
     | apply group_tables_columns].
Qed.

Section SampleFacts.

Context (sample : string → option Row).

Lemma get_example_rows_lookup (tables : gset string) t :
  get_example_rows sample tables !! t
  = if bool_decide (t ∈ tables) then Some (sample t) else None.
Proof.
  unfold get_example_rows.
  pose (P := fun (m : gmap string (option Row)) (X : gset string) =>
               m !! t = if bool_decide (t ∈ X) then Some (sample t) else None).
  change (P (set_fold (fun t example_rows => <[t := sample t]> example_rows)
               ∅ tables) tables).
  apply set_fold_ind_L; unfold P.
  - by rewrite lookup_empty, bool_decide_eq_false_2 by set_solver.
  - intros x X m Hx IH. destruct (decide (x = t)) as [->|Hne].
    + by rewrite lookup_insert_eq, bool_decide_eq_true_2 by set_solver.
    + rewrite lookup_insert_ne, IH by done.
      by rewrite (bool_decide_ext (t ∈ {[x]} ∪ X) (t ∈ X)) by set_solver.
Qed.

(** With the sample rows of its own tables, the description of a
    catalog is built without an exception. *)
Lemma format_schema_of_samples schema :
  format_schema schema (get_example_rows sample (catalog_tables schema))
  = ret (Py.join (Py.nl +:+ Py.nl)
           (map (described (get_example_rows sample (catalog_tables schema)))
                (group_tables schema))).
Proof.
  unfold format_schema.
  rewrite (for_each_ret _ (described (get_example_rows sample (catalog_tables schema))));
    [done|].
  intros [t columns] Hin. apply table_string_present. cbn [fst].
  destruct (group_tables_origin _ _ _ Hin) as (row & Hrow & <-).
  rewrite get_example_rows_lookup, bool_decide_eq_true_2; [done|].
  unfold catalog_tables. apply elem_of_list_to_set, list_elem_of_fmap. eauto.
Qed.

End SampleFacts.

(** X7.  [get_example_rows] returns a mapping whose keys are the given
    tables and nothing else; each table is mapped to what the sample
    query answered for it, a row or None. *)
Theorem get_example_rows_maps_every_table
    (sample : string → option Row) (tables : gset string) :
  dom (get_example_rows sample tables) = tables
  ∧ ∀ t, t ∈ tables → get_example_rows sample tables !! t = Some (sample t).
Proof.
  split.
  - apply set_eq. intros t. rewrite elem_of_dom, get_example_rows_lookup.
    destruct (bool_decide_reflect (t ∈ tables)); split; try done.
  - intros t Ht. by rewrite get_example_rows_lookup, bool_decide_eq_true_2.
Qed.

(** X8.  The description of a catalog with the sample rows collected for
    its own tables never raises: the lookup of line 83 finds every
    table, also a table without rows. *)
Theorem format_schema_of_collected_samples_returns
    (sample : string → option Row) schema :
  ∃ text,
    format_schema schema (get_example_rows sample (catalog_tables schema))
    = ret text.
Proof. eexists. apply format_schema_of_samples. Qed.


(** ** The retry loop and the session *)

Section SessionFacts.

Context (W : World).

Lemma after_reply_eq st response_content :
  after_reply W st response_content
  = let queries := extract_queries_from_response response_content in
    let st1 := append_message st Assistant response_content in
    let st2 := prompted (set_executed st1 (executed st ++ queries)) in
    let next_message := user_input W (prompts st) in
    if quits next_message then Break st2
    else Continue (append_message st2 User
                     (Py.nl +:+ next_message +:+ Py.nl
                      +:+ renderings W (executed st) queries)).
Proof. unfold after_reply. by rewrite run_queries_trace. Qed.

Lemma chat_loop_step fuel st :
  chat_loop W (S fuel) st
  = let '(r, calls) := call_model W (messages st) 0 (api_calls st) in
    match r with
    | GaveUp => (GivingUp, set_api_calls st calls)
    | LoopExhausted =>
        (Raised (AttributeError "'NoneType' object has no attribute 'choices'"),
         set_api_calls st calls)
    | Replied response_content =>
        match after_reply W (set_api_calls st calls) response_content with
        | Break st' => (UserQuit, close st')
        | Continue st' => chat_loop W fuel st'
        end
    end.
Proof. done. Qed.

Lemma assistant_candidates_app l1 l2 :
  assistant_candidates (l1 ++ l2)
  = assistant_candidates l1 ++ assistant_candidates l2.
Proof. apply flat_map_app. Qed.

Lemma chat_loop_executed fuel : ∀ st before,
  executed st = before ++ assistant_candidates (messages st) →
  executed (chat_loop W fuel st).2
  = before ++ assistant_candidates (messages (chat_loop W fuel st).2).
Proof.
  induction fuel as [|fuel IH]; intros st before Hst; [done|].
  rewrite chat_loop_step.
  destruct (call_model W (messages st) 0 (api_calls st)) as [r calls].
  destruct r as [response_content| |]; [|done..].
  rewrite after_reply_eq. cbn zeta.
  destruct (quits _).
  - cbn. rewrite assistant_candidates_app, Hst. cbn.
    by rewrite app_nil_r, app_assoc.
  - apply IH. cbn. rewrite !assistant_candidates_app, Hst. cbn.
    by rewrite !app_nil_r, app_assoc.
Qed.

Lemma chat_loop_roles fuel : ∀ st,
  ∃ n, n <= fuel
       ∧ messages st `prefix_of` messages (chat_loop W fuel st).2
       ∧ role <$> messages (chat_loop W fuel st).2
         = (role <$> messages st) ++ turn_roles n
           ++ match (chat_loop W fuel st).1 with
              | UserQuit => [Assistant]
              | _ => []
              end.
Proof.
  induction fuel as [|fuel IH]; intros st.
  { exists 0. cbn. by rewrite app_nil_r. }
  rewrite chat_loop_step.
  destruct (call_model W (messages st) 0 (api_calls st)) as [r calls].
  destruct r as [response_content| |].
  - rewrite after_reply_eq. cbn zeta. destruct (quits _).
    + exists 0. cbn. split_and!; [lia | by apply prefix_app_r |].
      by rewrite fmap_app.
    + match goal with |- context [chat_loop W fuel ?s] =>
        destruct (IH s) as (n & Hn & Hpre & Hroles) end.
      exists (S n). split_and!; [lia | |].
      * etransitivity; [|exact Hpre]. cbn. rewrite <- app_assoc.
        by apply prefix_app_r.
      * rewrite Hroles. cbn. rewrite !fmap_app.
        rewrite <- !app_assoc. reflexivity.
  - exists 0. cbn. split_and!; [lia | done | by rewrite app_nil_r].
  - exists 0. cbn. split_and!; [lia | done | by rewrite app_nil_r].
Qed.

End SessionFacts.

(** X10.  When the first [k] attempts of a model request fail, with
    [k] at most two, and the next one answers, the loop returns that
    answer unchanged after [k+1] network calls. *)
Theorem call_model_returns_first_reply
    (W : World) msgs calls k response_content :
  k < 3 →
  (∀ j, j < k → ∃ e, api W (calls + j) msgs = ApiError e) →
  api W (calls + k) msgs = ApiReply response_content →
  call_model W msgs 0 calls = (Replied response_content, calls + S k).
Proof.
  intros Hk Hfail Hok.
  destruct k as [|[|[|k]]]; [| | |lia].
  - rewrite Nat.add_0_r in Hok. rewrite Nat.add_1_r.
    by apply call_model_first_success.
  - destruct (Hfail 0) as [e0 H0]; [lia|]. rewrite Nat.add_0_r in H0.
    rewrite Nat.add_1_r in Hok.
    rewrite call_model_step, H0. simpl.
    rewrite call_model_step, Hok. simpl. f_equal. lia.
  - destruct (Hfail 0) as [e0 H0]; [lia|]. rewrite Nat.add_0_r in H0.
    destruct (Hfail 1) as [e1 H1]; [lia|]. rewrite Nat.add_1_r in H1.
    replace (calls + 2) with (S (S calls)) in Hok by lia.
    rewrite call_model_step, H0. simpl.
    rewrite call_model_step, H1. simpl.
    rewrite call_model_step, Hok. simpl. f_equal. lia.
Qed.

Lemma call_model_returns_first_reply_witness :
  1 < 3
  ∧ (∀ j, j < 1 → ∃ e, api world_flaky_once (0 + j) [] = ApiError e)
  ∧ api world_flaky_once (0 + 1) [] = ApiReply "try again"
  ∧ call_model world_flaky_once [] 0 0 = (Replied "try again", 0 + 2).
Proof.
  assert (∀ j, j < 1 → ∃ e, api world_flaky_once (0 + j) [] = ApiError e) as Hfail.
  { intros j Hj. assert (j = 0) as -> by lia. by eexists. }
  assert (1 < 3) as Hk by lia.
  split; [exact Hk|]. split; [exact Hfail|]. split; [reflexivity|].
  exact (call_model_returns_first_reply world_flaky_once [] 0 1 "try again"
           Hk Hfail eq_refl).
Defined.

(** X11.  A model request costs one, two or three network calls; it
    ends with a reply or with giving up, and it gives up only after
    three calls. *)
Theorem call_model_makes_one_to_three_calls (W : World) msgs calls :
  ∃ r n,
    call_model W msgs 0 calls = (r, n + calls)
    ∧ 1 <= n <= 3
    ∧ ((∃ response_content, r = Replied response_content) ∨ (r = GaveUp ∧ n = 3)).
Proof.
  rewrite call_model_step. simpl.
  destruct (api W calls msgs) as [r1|e1].
  { exists (Replied r1), 1. split_and!; [done | lia | lia | eauto]. }
  rewrite call_model_step. simpl.
  destruct (api W (S calls) msgs) as [r2|e2].
  { exists (Replied r2), 2. split_and!; [done | lia | lia | eauto]. }
  rewrite call_model_step. simpl.
  destruct (api W (S (S calls)) msgs) as [r3|e3].
  { exists (Replied r3), 3. split_and!; [done | lia | lia | eauto]. }
  exists GaveUp, 3. split_and!; [done | lia | lia | by right].
Qed.

(** X12.  The connection is never closed twice: [main] closes it once
    when the user quits at a follow-up prompt and not at all on its
    other ways out. *)
Theorem connection_closed_at_most_once (W : World) fuel :
  closed (main W fuel).2 <= 1
  ∧ (closed (main W fuel).2 = 1 ↔ (main W fuel).1 = UserQuit).
Proof.
  rewrite main_closes_only_on_quit.
  destruct (main W fuel).1; (split; [lia | split; (done || lia)]).
Qed.

(** X13.  The conversation only grows and its roles alternate: the
    messages a session starts a loop with stay in front, every turn
    appends an assistant message and then a user message, and a session
    that ends on the user's quit ends with the assistant's last reply. *)
Theorem chat_loop_appends_alternating_roles (W : World) fuel st :
  ∃ n, n <= fuel
       ∧ messages st `prefix_of` messages (chat_loop W fuel st).2
       ∧ role <$> messages (chat_loop W fuel st).2
         = (role <$> messages st) ++ turn_roles n
           ++ match (chat_loop W fuel st).1 with
              | UserQuit => [Assistant]
              | _ => []
              end.
Proof. apply chat_loop_roles. Qed.

(** X14.  The statements sent on the connection during a session are
    the catalog query, one sample query per table of the catalog, and
    then the candidates of the assistant's replies, all of them, in
    order; no prose and no text of the user is sent. *)
Theorem main_executes_only_extracted_candidates (W : World) fuel :
  ∃ samples,
    samples ≡ₚ sample_query <$> elements (catalog_tables (schema_rows W))
    ∧ executed (main W fuel).2
      = schema_query :: samples
        ++ assistant_candidates (messages (main W fuel).2).
Proof.
  exists (sample_query <$> elements (catalog_tables (schema_rows W))).
  split; [done|].
  change (schema_query
          :: (sample_query <$> elements (catalog_tables (schema_rows W)))
             ++ assistant_candidates (messages (main W fuel).2))
    with (startup_statements W
          ++ assistant_candidates (messages (main W fuel).2)).
  unfold main. destruct (format_schema _ _).
  { cbn. by rewrite app_nil_r. }
  destruct (decide _); [|cbn; by rewrite app_nil_r].
  destruct (String.eqb _ _); [cbn; by rewrite app_nil_r|].
  apply chat_loop_executed. cbn. by rewrite app_nil_r.
Qed.

Section QuitFacts.

Lemma lower_char_q c :
  Py.lower_char c = "q"%char → c = "q"%char ∨ c = "Q"%char.
Proof.
  destruct c as [[] [] [] [] [] [] [] []]; vm_compute;
    intros H; try discriminate H; auto.
Qed.

Lemma quits_spec next_message :
  quits next_message = true ↔ next_message = "q" ∨ next_message = "Q".
Proof.
  unfold quits. rewrite String.eqb_eq. split.
  - destruct next_message as [|c [|c' s]]; [done | | done].
    cbn [Py.lower]. intros [= H].
    destruct (lower_char_q c H) as [->| ->]; auto.
  - by intros [->| ->].
Qed.

End QuitFacts.

(** X15.  A turn ends the loop exactly when the user's text is the
    letter q in either case; any other text, also one with a space
    around the letter, continues the conversation. *)
Theorem after_reply_breaks_on_q_only (W : World) st response_content :
  (∃ st', after_reply W st response_content = Break st')
  ↔ (user_input W (prompts st) = "q" ∨ user_input W (prompts st) = "Q").
Proof.
  rewrite <- quits_spec, after_reply_eq. cbn zeta.
  destruct (quits _); split; try done; eauto.
  by intros [st' ?].
Qed.

(** X16.  When every model call answers and the user types the quit
    token at the follow-up prompt number [k], counted from 0, a loop
    with more than [k] turns of fuel ends on that quit after [k+1]
    prompts and [k+1] network calls, and closes the connection. *)
Theorem chat_loop_ends_when_user_quits (W : World) k : ∀ fuel st,
  (∀ n msgs, ∃ response_content, api W n msgs = ApiReply response_content) →
  (∀ j, j < k → quits (user_input W (prompts st + j)) = false) →
  quits (user_input W (prompts st + k)) = true →
  k < fuel →
  ∃ st', chat_loop W fuel st = (UserQuit, st')
         ∧ prompts st' = prompts st + S k
         ∧ api_calls st' = api_calls st + S k
         ∧ closed st' = S (closed st).
Proof.
  induction k as [|k IH]; intros fuel st Hapi Hnot Hquit Hfuel;
    (destruct fuel as [|fuel]; [lia|]);
    rewrite chat_loop_step;
    destruct (Hapi (api_calls st) (messages st)) as [reply Hreply];
    rewrite (call_model_first_success _ _ _ _ Hreply);
    rewrite after_reply_eq; cbn zeta; cbn [prompts set_api_calls].
  - rewrite Nat.add_0_r in Hquit. rewrite Hquit.
    eexists. split; [done|]. cbn. lia.
  - rewrite <- (Nat.add_0_r (prompts st)), (Hnot 0) by lia.
    match goal with |- context [chat_loop W fuel ?s] =>
      destruct (IH fuel s) as (st' & -> & Hp & Hc & Hcl) end.
    + done.
    + intros j Hj. cbn. rewrite <- Nat.add_succ_r. apply Hnot. lia.
    + cbn. by rewrite <- Nat.add_succ_r.
    + lia.
    + exists st'. cbn in *. split; [done|]. lia.
Qed.

Lemma chat_loop_ends_when_user_quits_witness :
  (∀ n msgs, ∃ response_content,
      api world_count_users n msgs = ApiReply response_content)
  ∧ (∀ j, j < 0 →
          quits (user_input world_count_users (prompts (fresh_session []) + j))
          = false)
  ∧ quits (user_input world_count_users (prompts (fresh_session []) + 0)) = true
  ∧ 0 < 1
  ∧ ∃ st', chat_loop world_count_users 1 (fresh_session []) = (UserQuit, st')
           ∧ prompts st' = prompts (fresh_session []) + 1
           ∧ api_calls st' = api_calls (fresh_session []) + 1
           ∧ closed st' = S (closed (fresh_session [])).
Proof.
  assert (∀ n msgs, ∃ response_content,
             api world_count_users n msgs = ApiReply response_content) as Hapi.
  { intros n msgs. by eexists. }
  assert (∀ j, j < 0 →
               quits (user_input world_count_users
                        (prompts (fresh_session []) + j)) = false) as Hnot.
  { intros j Hj. lia. }
  assert (0 < 1) as Hfuel by lia.
  split; [exact Hapi|]. split; [exact Hnot|]. split; [reflexivity|].
  split; [exact Hfuel|].
  exact (chat_loop_ends_when_user_quits world_count_users 0 1 (fresh_session [])
           Hapi Hnot eq_refl Hfuel).
Defined.

(** X17.  A table name that the catalog does not have, or the quit
    token as the first question, ends [main] before the loop: no model
    call is made, no message is recorded, nothing is sent on the
    connection after the catalog and sample queries of lines 128..130,
    and the connection is left open. *)
Theorem main_leaves_before_the_loop (W : World) fuel :
  selected_table W ∉ catalog_tables (schema_rows W)
  ∨ quits (initial_question W) = true →
  main W fuel
  = (if bool_decide (selected_table W ∈ catalog_tables (schema_rows W))
     then InitialQuit else InvalidTable,
     {| messages := []; api_calls := 0;
        executed := startup_statements W; prompts := 0; closed := 0 |}).
Proof.
  intros H. unfold main.
  change (list_to_set (table_name <$> schema_rows W))
    with (catalog_tables (schema_rows W)).
  rewrite format_schema_of_samples. cbn [ret].
  destruct (decide (selected_table W ∈ catalog_tables (schema_rows W)))
    as [Hin|Hout].
  - rewrite bool_decide_eq_true_2 by done.
    destruct H as [H|H]; [done|]. unfold quits in H. by rewrite H.
  - by rewrite bool_decide_eq_false_2.
Qed.

Lemma main_leaves_before_the_loop_witness :
  (selected_table world_unknown_table
     ∉ catalog_tables (schema_rows world_unknown_table)
   ∨ quits (initial_question world_unknown_table) = true)
  ∧ main world_unknown_table 3
    = (if bool_decide (selected_table world_unknown_table
                         ∈ catalog_tables (schema_rows world_unknown_table))
       then InitialQuit else InvalidTable,
       {| messages := []; api_calls := 0;
          executed := startup_statements world_unknown_table;
          prompts := 0; closed := 0 |}).
Proof.
  assert (selected_table world_unknown_table
            ∉ catalog_tables (schema_rows world_unknown_table)
          ∨ quits (initial_question world_unknown_table) = true) as H.
  { left. by vm_compute. }
  split; [exact H|].
  exact (main_leaves_before_the_loop world_unknown_table 3 H).
Defined.
